(** * Placeholder icon generator (src-tauri/icons/create_icons.py)

    The script is a flat sequence of calls into an imaging library: for
    each configured size it allocates a transparent RGBA canvas, draws one
    ellipse on it and saves it as a PNG; afterwards it re-opens
    [128x128.png] from disk, saves it again as [128x128@2x.png] and prints
    one line.

    The embedding follows the script line by line in a small state-and-error
    monad over the working directory.  PNG is lossless for 8-bit RGBA, so a
    file's content is modelled by the image it decodes to.  The scan
    conversion of the ellipse is the imaging library's and not part of this
    repository: what one pass of it does to a pixel is a parameter [covers]
    of the development, and what is known of the library enters as explicit
    contracts on that parameter. *)

From Stdlib Require Import ZArith Lia String Ascii List.
From stdpp Require Import base gmap list strings pretty.

Local Open Scope Z_scope.
#[local] Set Warnings "-clear-no-such-hyp".

(** ** Pixels and images *)

(** An RGBA colour as the script writes it: a 4-tuple (r, g, b, a). *)
Definition rgba : Type := Z * Z * Z * Z.

Definition alpha (p : rgba) : Z := p.2.

(** A bounding box as the script writes it: [x0, y0, x1, y1]. *)
Definition box : Type := Z * Z * Z * Z.

(** A raster image: its size (width, height) and its rows, top to bottom. *)
Record Image := mkImage {
  im_size : Z * Z;
  im_data : list (list rgba)
}.

(** The pixel at column [x] of row [y], when the image has one there. *)
Definition pixel_at (im : Image) (xy : Z * Z) : option rgba :=
  let '(x, y) := xy in
  if (0 <=? x) && (0 <=? y)
  then im_data im !! Z.to_nat y ≫= (λ row : list rgba, row !! Z.to_nat x)
  else None.

(** The raster really has the advertised size. *)
Definition well_sized (im : Image) : Prop :=
  let '(w, h) := im_size im in
  length (im_data im) = Z.to_nat h ∧
  Forall (λ row : list rgba, length row = Z.to_nat w) (im_data im).

(** ** Exceptions and the world *)

Inductive exn :=
  | ValueError (msg : string)
  | OverflowError (msg : string)
  | FileNotFoundError (filename : string).

(** What the process does to its surroundings, in order. *)
Inductive event :=
  | EvOpen (name : string)
  | EvWrite (name : string)
  | EvStdout (text : string).

(** The working directory and the trace of effects so far. *)
Record World := mkWorld {
  fs : gmap string Image;
  events : list event
}.

(** A computation transforms the world and returns or raises.  The world
    survives an exception: files written before it stay written. *)
Definition M (A : Type) : Type := World → World * (exn + A).

Definition ret {A} (a : A) : M A := λ σ, (σ, inr a).

Definition raise {A} (e : exn) : M A := λ σ, (σ, inl e).

Definition bind {A B} (m : M A) (k : A → M B) : M B :=
  λ σ, match m σ with
       | (σ', inr a) => k a σ'
       | (σ', inl e) => (σ', inl e)
       end.

Definition lift {A} (r : exn + A) : M A :=
  match r with inl e => raise e | inr a => ret a end.

Global Instance M_ret : MRet M := @ret.
Global Instance M_bind : MBind M := λ A B k m, bind m k.

(** [for x in l: body(x)] *)
Fixpoint for_each {A} (l : list A) (body : A → M unit) : M unit :=
  match l with
  | [] => ret tt
  | a :: l' => body a ;; for_each l' body
  end.

(** The characters written to standard output by a trace. *)
Fixpoint stdout_of (evs : list event) : string :=
  match evs with
  | [] => ""
  | EvStdout t :: evs' => t +:+ stdout_of evs'
  | _ :: evs' => stdout_of evs'
  end.

(** The names of the files written by a trace, in order. *)
Fixpoint writes_of (evs : list event) : list string :=
  match evs with
  | [] => []
  | EvWrite n :: evs' => n :: writes_of evs'
  | _ :: evs' => writes_of evs'
  end.

(** The effects a computation has added to the trace of [σ] when it has
    led to [σ']. *)
Definition new_events (σ σ' : World) : list event :=
  drop (length (events σ)) (events σ').

(** ** The imaging library, as the script uses it *)

(** [Image.new('RGBA', size, color)]: rejects a negative width or height
    with ValueError and one that does not fit a C int with OverflowError,
    otherwise a canvas with every pixel set to [color]. *)
Definition Image_new (size : Z * Z) (color : rgba) : exn + Image :=
  let '(w, h) := size in
  if (w <? 0) || (h <? 0)
  then inl (ValueError "Width and height must be >= 0")
  else if (2 ^ 31 <=? w) || (2 ^ 31 <=? h)
  then inl (OverflowError "Python int too large to convert to C int")
  else inr {| im_size := (w, h);
              im_data := replicate (Z.to_nat h) (replicate (Z.to_nat w) color) |}.

(** [img.save(name)]: writes the file, replacing one of the same name. *)
Definition Image_save (im : Image) (name : string) : M unit :=
  λ σ, ({| fs := <[name := im]> (fs σ);
           events := events σ ++ [EvWrite name] |}, inr tt).

(** [Image.open(name)]: the decoded content of the file, or
    [FileNotFoundError] when the directory has no such file. *)
Definition Image_open (name : string) : M Image :=
  λ σ, match fs σ !! name with
       | Some im => ({| fs := fs σ; events := events σ ++ [EvOpen name] |}, inr im)
       | None => (σ, inl (FileNotFoundError name))
       end.

Definition newline : string := String "010"%char "".

(** [print(s)]: the text and a line feed on standard output. *)
Definition print (s : string) : M unit :=
  λ σ, ({| fs := fs σ; events := events σ ++ [EvStdout (s +:+ newline)] |}, inr tt).

(** The library's scan conversion of an ellipse, pixel by pixel:
    [covers xy fill width x y ink p] is what one drawing pass leaves in
    pixel (x, y), which held [p], when it covers the canvas with the ellipse
    of bounding box [xy] in colour [ink], either as a filled shape
    ([fill = true]) or as a stroke of the given width.  Nothing is assumed
    of it here; what the library guarantees is stated as contracts below. *)
Definition primitive : Type := box → bool → Z → Z → Z → rgba → rgba → rgba.

Section Generator.

Variable covers : primitive.

(** One pass of the primitive over the canvas. *)
Definition draw_ellipse (im : Image) (xy : box) (ink : rgba)
    (fill : bool) (width : Z) : Image :=
  {| im_size := im_size im;
     im_data :=
       imap (λ y row,
         imap (λ x p, covers xy fill width (Z.of_nat x) (Z.of_nat y) ink p)
           row)
         (im_data im) |}.

(** [ImageDraw.Draw(img).ellipse(xy, fill=..., outline=...)] with both
    colours given, as the script calls it: a box whose second corner lies
    before the first is rejected with ValueError before anything is drawn;
    otherwise the filled shape is drawn first, then the outline stroke over
    it (default width 1).  The drawing happens in place on [img]; the
    updated canvas is returned. *)
Definition ImageDraw_ellipse (im : Image) (xy : box)
    (fill outline : rgba) (width : Z) : exn + Image :=
  let '(x0, y0, x1, y1) := xy in
  if x1 <? x0
  then inl (ValueError "x1 must be greater than or equal to x0")
  else if y1 <? y0
  then inl (ValueError "y1 must be greater than or equal to y0")
  else
    let im1 := draw_ellipse im xy fill true 0 in
    inr (if bool_decide (outline ≠ fill) && negb (width =? 0)
         then draw_ellipse im1 xy outline false width
         else im1).

(** ** The script *)

(** Line 6. *)
Definition icon_sizes : list (Z * Z) := [(32, 32); (128, 128)].

(** Line 14. *)
Definition margin : Z := 4.

Definition transparent : rgba := (0, 0, 0, 0).
Definition steel_blue : rgba := (70, 130, 180, 255).
Definition midnight_blue : rgba := (25, 25, 112, 255).

(** Line 19's f-string [f'{width}x{height}.png']. *)
Definition icon_name (width height : Z) : string :=
  pretty width +:+ "x" +:+ pretty height +:+ ".png".

(** Lines 9-19, the body of the loop. *)
Definition loop_body (size : Z * Z) : M unit :=
  let '(width, height) := size in
  img ← lift (Image_new (width, height) (0, 0, 0, 0));
  img ← lift (ImageDraw_ellipse img
                (margin, margin, width - margin, height - margin)
                (70, 130, 180, 255) (25, 25, 112, 255) 1);
  Image_save img (icon_name width height).

(** Lines 22-23. *)
Definition duplicate_2x : M unit :=
  img_128 ← Image_open "128x128.png";
  Image_save img_128 "128x128@2x.png".

(** The whole script, over the size list of line 6. *)
Definition generate (sizes : list (Z * Z)) : M unit :=
  for_each sizes loop_body;;
  duplicate_2x;;
  print "Created placeholder icons".

Definition main : M unit := generate icon_sizes.

End Generator.

(** ** Sizes the loop body gets through *)

(** A size passes lines 10-16 when the canvas can be allocated and the box
    [4, 4, width - 4, height - 4] is not inverted: both sides at least 8 and
    within a C int. *)
Definition drawable (size : Z * Z) : bool :=
  let '(w, h) := size in
  (2 * margin <=? w) && (w <? 2 ^ 31) && (2 * margin <=? h) && (h <? 2 ^ 31).

(** What lines 10-16 raise on a size that is not drawable. *)
Definition size_error (size : Z * Z) : exn :=
  let '(w, h) := size in
  if (w <? 0) || (h <? 0)
  then ValueError "Width and height must be >= 0"
  else if (2 ^ 31 <=? w) || (2 ^ 31 <=? h)
  then OverflowError "Python int too large to convert to C int"
  else if w - margin <? margin
  then ValueError "x1 must be greater than or equal to x0"
  else ValueError "y1 must be greater than or equal to y0".

(** The sizes the loop gets through: those before the first one that is
    not drawable. *)
Fixpoint processed (sizes : list (Z * Z)) : list (Z * Z) :=
  match sizes with
  | [] => []
  | s :: rest => if drawable s then s :: processed rest else []
  end.

(** The size the loop stops at, if any. *)
Fixpoint first_bad (sizes : list (Z * Z)) : option (Z * Z) :=
  match sizes with
  | [] => None
  | s :: rest => if drawable s then first_bad rest else Some s
  end.

(** ** What the loop saves *)

(** The image the loop body saves for a size: the transparent canvas after
    the two passes of lines 15-16. *)
Definition icon (covers : primitive) (w h : Z) : Image :=
  draw_ellipse covers
    (draw_ellipse covers
       {| im_size := (w, h);
          im_data := replicate (Z.to_nat h) (replicate (Z.to_nat w) transparent) |}
       (margin, margin, w - margin, h - margin) steel_blue true 0)
    (margin, margin, w - margin, h - margin) midnight_blue false 1.

(** The colour of pixel (x, y) after the two passes of the drawing step:
    the outline stroke over the filled shape over the background. *)
Definition paint (covers : primitive) (bb : box) (x y : Z) : rgba :=
  covers bb false 1 x y midnight_blue (covers bb true 0 x y steel_blue transparent).

(** The directory after the loop: one file per size, later sizes replacing
    earlier ones of the same name. *)
Definition save_all (covers : primitive)
    (sizes : list (Z * Z)) (dir : gmap string Image) : gmap string Image :=
  foldl (λ d '(w, h), <[icon_name w h := icon covers w h]> d) dir sizes.

(** The input constraint on the size list: positive widths and heights. *)
Definition positive_sizes (sizes : list (Z * Z)) : Prop :=
  Forall (λ '(w, h), 0 < w ∧ 0 < h) sizes.

(** ** Contracts of the imaging library

    What is known of the library's scan conversion, each as a property a
    statement may ask of [covers]. *)

(** Hard edges: a pass sets a pixel to the ink or leaves it as it was;
    nothing is blended or anti-aliased. *)
Definition hard_edged (covers : primitive) : Prop :=
  ∀ xy fill width x y ink p,
    covers xy fill width x y ink p = ink ∨ covers xy fill width x y ink p = p.

(** The ellipse is drawn inside its bounding box: a pixel outside the box,
    both corners of the box counting as inside, is left as it was. *)
Definition inside_box (covers : primitive) : Prop :=
  ∀ x0 y0 x1 y1 fill width x y ink p,
    ¬ (x0 ≤ x ≤ x1 ∧ y0 ≤ y ≤ y1) →
    covers (x0, y0, x1, y1) fill width x y ink p = p.

(** The outline reaches both ends of the box: for a box of even extent, at
    least 8 each way, the stroke of width 1 sets the four pixels where the
    axes of the ellipse meet the sides of the box. *)
Definition strokes_ends (covers : primitive) : Prop :=
  ∀ x0 y0 x1 y1 ink p,
    8 ≤ x1 - x0 → 8 ≤ y1 - y0 →
    Z.even (x1 - x0) = true → Z.even (y1 - y0) = true →
    covers (x0, y0, x1, y1) false 1 x0 ((y0 + y1) `div` 2) ink p = ink ∧
    covers (x0, y0, x1, y1) false 1 x1 ((y0 + y1) `div` 2) ink p = ink ∧
    covers (x0, y0, x1, y1) false 1 ((x0 + x1) `div` 2) y0 ink p = ink ∧
    covers (x0, y0, x1, y1) false 1 ((x0 + x1) `div` 2) y1 ink p = ink.

(** Pixel (x, y) lies well inside the ellipse inscribed in the box: the box
    extends at least 8 each way and the pixel centre is within the concentric
    ellipse of half the axes.  Coordinates are doubled and centred, so that
    everything stays in the integers. *)
Definition well_inside (xy : box) (x y : Z) : bool :=
  let '(x0, y0, x1, y1) := xy in
  let a := x1 - x0 in
  let b := y1 - y0 in
  let dx := 2 * x - x0 - x1 in
  let dy := 2 * y - y0 - y1 in
  (8 <=? a) && (8 <=? b) &&
  (4 * (dx * dx * (b * b) + dy * dy * (a * a)) <=? a * a * (b * b)).

(** A pixel well inside the ellipse is set by the filled shape and left
    alone by the stroke of width 1. *)
Definition fills_centre (covers : primitive) : Prop :=
  ∀ xy x y ink p,
    well_inside xy x y = true →
    covers xy true 0 x y ink p = ink ∧ covers xy false 1 x y ink p = p.

(** ** A reference scan conversion

    The ideal ellipse inscribed in the box, tested at pixel centres in
    doubled coordinates.  It is not the library's scan conversion; it shows
    that the contracts above can be met together and lets statements be
    evaluated. *)

Definition in_ellipse (a b dx dy : Z) : bool :=
  (Z.abs dx <=? a) && (Z.abs dy <=? b) &&
  (dx * dx * (b * b) + dy * dy * (a * a) <=? a * a * (b * b)).

Definition ref_mask (xy : box) (fill : bool) (width x y : Z) : bool :=
  let '(x0, y0, x1, y1) := xy in
  let a := x1 - x0 in
  let b := y1 - y0 in
  let dx := 2 * x - x0 - x1 in
  let dy := 2 * y - y0 - y1 in
  in_ellipse a b dx dy &&
  (fill || negb (in_ellipse (a - 2 * width) (b - 2 * width) dx dy)).

Definition ref_covers : primitive :=
  λ xy fill width x y ink p, if ref_mask xy fill width x y then ink else p.

(** ** Characters of file names *)

(** The characters a decimal integer is written with. *)
Definition is_num_char (c : ascii) : bool :=
  match c with
  | "0" | "1" | "2" | "3" | "4" | "5" | "6" | "7" | "8" | "9" | "-" => true
  | _ => false
  end%char.

Fixpoint str_forall (P : ascii → bool) (s : string) : bool :=
  match s with
  | EmptyString => true
  | String c s' => P c && str_forall P s'
  end.

(** ** Two working directories *)

(** An empty directory and no effects yet. *)
Definition fresh : World := {| fs := ∅; events := [] |}.

(** The directory an earlier run of the script has left behind, under the
    reference scan conversion. *)
Definition after_one_run : World :=
  {| fs := fs (main ref_covers fresh).1; events := [] |}.

(** * Properties *)

(** ** File names *)

Lemma pretty_N_go_num x s :
  str_forall is_num_char s = true →
  str_forall is_num_char (pretty_N_go x s) = true.
Proof.
  revert s. induction (N.lt_wf_0 x) as [x _ IH]; intros s Hs.
  destruct (decide (x = 0%N)) as [->|Hx].
  - by rewrite pretty_N_go_0.
  - rewrite pretty_N_go_step by lia. apply IH.
    + apply N.div_lt; lia.
    + simpl. rewrite Hs, andb_true_r.
      unfold pretty_N_char. by repeat case_match.
Qed.

Lemma pretty_Z_num (z : Z) : str_forall is_num_char (pretty z) = true.
Proof.
  assert (∀ p : positive, str_forall is_num_char (pretty p) = true) as Hp.
  { intros p. unfold pretty, pretty_positive, pretty, pretty_N.
    case_decide; [done|]. by apply pretty_N_go_num. }
  destruct z as [|p|p]; unfold pretty, pretty_Z; [done|apply Hp|].
  simpl. apply Hp.
Qed.

(** Two strings that agree and each start with a run of numeric characters
    ended by a non-numeric one have the same run and the same rest. *)
Lemma split_at_first (P : ascii → bool) s1 s2 c1 c2 r1 r2 :
  str_forall P s1 = true → str_forall P s2 = true →
  P c1 = false → P c2 = false →
  s1 +:+ String c1 r1 = s2 +:+ String c2 r2 →
  s1 = s2 ∧ c1 = c2 ∧ r1 = r2.
Proof.
  revert s2. induction s1 as [|a s1 IH]; intros [|b s2]; simpl;
    intros H1 H2 Hc1 Hc2 Heq.
  - by simplify_eq.
  - simplify_eq. apply andb_prop in H2 as [? _]. congruence.
  - simplify_eq. apply andb_prop in H1 as [? _]. congruence.
  - apply andb_prop in H1 as [_ H1]. apply andb_prop in H2 as [_ H2].
    injection Heq as -> Heq.
    destruct (IH s2 H1 H2 Hc1 Hc2 Heq) as (-> & -> & ->). done.
Qed.

Lemma icon_name_inj w h w' h' :
  icon_name w h = icon_name w' h' → w = w' ∧ h = h'.
Proof.
  unfold icon_name. intros Heq.
  apply (split_at_first is_num_char) in Heq as (Hw & _ & Heq);
    [|apply pretty_Z_num..|done|done].
  apply (split_at_first is_num_char) in Heq as (Hh & _ & _);
    [|apply pretty_Z_num..|done|done].
  split; by apply (inj pretty).
Qed.

Lemma icon_name_not_2x w h : icon_name w h ≠ "128x128@2x.png".
Proof.
  unfold icon_name. intros Heq.
  apply (split_at_first is_num_char _ "128" _ _ _ "128@2x.png")
    in Heq as (_ & _ & Heq); [|apply pretty_Z_num|done..].
  apply (split_at_first is_num_char _ "128" _ _ _ "2x.png")
    in Heq as (_ & Hc & _); [|apply pretty_Z_num|done..].
  discriminate Hc.
Qed.

Lemma icon_name_128 w h :
  icon_name w h = "128x128.png" → (w, h) = (128, 128).
Proof.
  intros Heq. change "128x128.png" with (icon_name 128 128) in Heq.
  apply icon_name_inj in Heq as [-> ->]. done.
Qed.

(** ** Running the script *)

Lemma bind_run {A B} (m : M A) (k : A → M B) σ :
  (m ≫= k) σ =
  match m σ with
  | (σ', inr a) => k a σ'
  | (σ', inl e) => (σ', inl e)
  end.
Proof. reflexivity. Qed.

Lemma drawable_spec w h :
  drawable (w, h) = true ↔ (8 ≤ w < 2 ^ 31 ∧ 8 ≤ h < 2 ^ 31).
Proof.
  unfold drawable, margin. rewrite !andb_true_iff, !Z.leb_le, !Z.ltb_lt. lia.
Qed.

Lemma processed_drawable sizes s : s ∈ processed sizes → drawable s = true.
Proof.
  induction sizes as [|s' sizes IH]; simpl; [by intros ?%elem_of_nil|].
  destruct (drawable s') eqn:Hs'; [|by intros ?%elem_of_nil].
  intros [->|Hin]%elem_of_cons; [done|by apply IH].
Qed.

Lemma processed_subset sizes s : s ∈ processed sizes → s ∈ sizes.
Proof.
  induction sizes as [|s' sizes IH]; simpl; [done|].
  destruct (drawable s'); [|by intros ?%elem_of_nil].
  intros [->|Hin]%elem_of_cons; [left|right; by apply IH].
Qed.

Lemma first_bad_None sizes :
  first_bad sizes = None ↔ Forall (λ s, drawable s = true) sizes.
Proof.
  induction sizes as [|s sizes IH]; simpl; [by split; [constructor|]|].
  destruct (drawable s) eqn:Hs.
  - rewrite IH. split; [by constructor|by inversion 1].
  - split; [done|]. inversion 1; congruence.
Qed.

Lemma processed_all sizes : first_bad sizes = None → processed sizes = sizes.
Proof.
  induction sizes as [|s sizes IH]; simpl; [done|].
  destruct (drawable s); [|done]. intros H. by rewrite IH.
Qed.

Lemma first_bad_Some sizes s :
  first_bad sizes = Some s → drawable s = false ∧ s ∈ sizes.
Proof.
  induction sizes as [|s' sizes IH]; simpl; [done|].
  destruct (drawable s') eqn:Hs'.
  - intros [? ?]%IH. split; [done|by right].
  - intros [= <-]. split; [done|left].
Qed.

Section Run.

Variable covers : primitive.

(** The loop body, whatever the size: it saves the icon of a drawable size
    and raises on any other, leaving the world as it was. *)
Lemma loop_body_cases w h σ :
  loop_body covers (w, h) σ =
  if drawable (w, h)
  then ({| fs := <[icon_name w h := icon covers w h]> (fs σ);
           events := events σ ++ [EvWrite (icon_name w h)] |}, inr tt)
  else (σ, inl (size_error (w, h))).
Proof.
  destruct (drawable (w, h)) eqn:Hd.
  - apply drawable_spec in Hd as [[Hw Hw'] [Hh Hh']].
    unfold loop_body, Image_new, ImageDraw_ellipse, margin.
    rewrite bind_run.
    rewrite (proj2 (Z.ltb_ge w 0)), (proj2 (Z.ltb_ge h 0)) by lia.
    rewrite (proj2 (Z.leb_gt (2 ^ 31) w)), (proj2 (Z.leb_gt (2 ^ 31) h)) by lia.
    cbn [orb lift ret]. rewrite bind_run.
    rewrite (proj2 (Z.ltb_ge (w - 4) 4)), (proj2 (Z.ltb_ge (h - 4) 4)) by lia.
    reflexivity.
  - assert (¬ (8 ≤ w < 2 ^ 31 ∧ 8 ≤ h < 2 ^ 31)) as Hbad.
    { rewrite <-drawable_spec. congruence. }
    unfold loop_body, Image_new, ImageDraw_ellipse, size_error, margin.
    rewrite bind_run.
    destruct (Z.ltb_spec w 0), (Z.ltb_spec h 0); try reflexivity.
    destruct (Z.leb_spec (2 ^ 31) w), (Z.leb_spec (2 ^ 31) h); try reflexivity.
    cbn [orb lift ret]. rewrite bind_run.
    destruct (Z.ltb_spec (w - 4) 4); [reflexivity|].
    destruct (Z.ltb_spec (h - 4) 4); [reflexivity|].
    exfalso. lia.
Qed.

Lemma loop_body_run w h σ :
  drawable (w, h) = true →
  loop_body covers (w, h) σ =
  ({| fs := <[icon_name w h := icon covers w h]> (fs σ);
      events := events σ ++ [EvWrite (icon_name w h)] |}, inr tt).
Proof. intros Hd. by rewrite loop_body_cases, Hd. Qed.

(** The loop gets through the drawable sizes before the first bad one and
    stops there. *)
Lemma for_each_cases sizes σ :
  for_each sizes (loop_body covers) σ =
  ({| fs := save_all covers (processed sizes) (fs σ);
      events := events σ ++
        ((λ '(w, h), EvWrite (icon_name w h)) <$> processed sizes) |},
   match first_bad sizes with
   | None => inr tt
   | Some s => inl (size_error s)
   end).
Proof.
  revert σ. induction sizes as [|[w h] sizes IH]; intros σ.
  - simpl. rewrite app_nil_r. by destruct σ.
  - cbn [for_each processed first_bad]. rewrite bind_run, loop_body_cases.
    destruct (drawable (w, h)).
    + rewrite IH. cbn [fs events fmap list_fmap]. by rewrite <-app_assoc.
    + cbn [fmap list_fmap]. rewrite app_nil_r. by destruct σ.
Qed.

Lemma for_each_run sizes σ :
  first_bad sizes = None →
  for_each sizes (loop_body covers) σ =
  ({| fs := save_all covers sizes (fs σ);
      events := events σ ++ ((λ '(w, h), EvWrite (icon_name w h)) <$> sizes) |},
   inr tt).
Proof.
  intros Hok. by rewrite for_each_cases, Hok, processed_all.
Qed.

(** The duplication step reads whatever the loop left on disk under the
    literal name. *)
Lemma generate_after_loop sizes σ :
  generate covers sizes σ =
  match for_each sizes (loop_body covers) σ with
  | (σ1, inr _) =>
      match fs σ1 !! "128x128.png" with
      | Some im =>
          ({| fs := <["128x128@2x.png" := im]> (fs σ1);
              events := events σ1 ++
                [EvOpen "128x128.png"; EvWrite "128x128@2x.png";
                 EvStdout ("Created placeholder icons" +:+ newline)] |},
           inr tt)
      | None => (σ1, inl (FileNotFoundError "128x128.png"))
      end
  | (σ1, inl e) => (σ1, inl e)
  end.
Proof.
  unfold generate. rewrite bind_run.
  destruct (for_each sizes (loop_body covers) σ) as [σ1 [e|[]]]; [done|].
  rewrite bind_run. unfold duplicate_2x. rewrite bind_run. unfold Image_open.
  destruct (fs σ1 !! "128x128.png") as [im|]; [|done].
  unfold Image_save, print. simpl. by rewrite <-!app_assoc.
Qed.

Lemma generate_run sizes σ :
  first_bad sizes = None →
  generate covers sizes σ =
  let dir := save_all covers sizes (fs σ) in
  let evs := events σ ++ ((λ '(w, h), EvWrite (icon_name w h)) <$> sizes) in
  match dir !! "128x128.png" with
  | Some im =>
      ({| fs := <["128x128@2x.png" := im]> dir;
          events := evs ++ [EvOpen "128x128.png"; EvWrite "128x128@2x.png";
                            EvStdout ("Created placeholder icons" +:+ newline)] |},
       inr tt)
  | None =>
      ({| fs := dir; events := evs |}, inl (FileNotFoundError "128x128.png"))
  end.
Proof.
  intros Hok. rewrite generate_after_loop, for_each_run by done.
  cbv zeta. cbn [fs events].
  by destruct (save_all covers sizes (fs σ) !! "128x128.png").
Qed.

Lemma generate_stop sizes s σ :
  first_bad sizes = Some s →
  generate covers sizes σ =
  ({| fs := save_all covers (processed sizes) (fs σ);
      events := events σ ++
        ((λ '(w, h), EvWrite (icon_name w h)) <$> processed sizes) |},
   inl (size_error s)).
Proof.
  intros Hbad. by rewrite generate_after_loop, for_each_cases, Hbad.
Qed.

(** A run that succeeds has got through every size. *)
Lemma generate_success sizes σ σ' :
  generate covers sizes σ = (σ', inr tt) → first_bad sizes = None.
Proof.
  destruct (first_bad sizes) as [s|] eqn:Hbad; [|done].
  by rewrite (generate_stop sizes s).
Qed.

End Run.

(** ** The directory after the loop *)

Section Directory.

Variable covers : primitive.

(** The directory after the loop, file by file. *)
Lemma save_all_lookup_other sizes dir name :
  (∀ w h, (w, h) ∈ sizes → icon_name w h ≠ name) →
  save_all covers sizes dir !! name = dir !! name.
Proof.
  unfold save_all. revert dir.
  induction sizes as [|[w h] sizes IH]; intros dir Hne; [done|].
  cbn [foldl]. rewrite IH.
  - apply lookup_insert_ne, Hne. left.
  - intros w' h' Hin. apply Hne. by right.
Qed.

Lemma save_all_lookup sizes dir w h :
  (w, h) ∈ sizes →
  save_all covers sizes dir !! icon_name w h = Some (icon covers w h).
Proof.
  revert dir. induction sizes as [|[w' h'] sizes IH]; intros dir Hin.
  - by apply elem_of_nil in Hin.
  - change (save_all covers ((w', h') :: sizes) dir) with
      (save_all covers sizes (<[icon_name w' h' := icon covers w' h']> dir)).
    destruct (decide ((w, h) ∈ sizes)) as [Hin'|Hnin].
    + by apply IH.
    + apply elem_of_cons in Hin as [Heq|?]; [|done]. simplify_eq.
      rewrite save_all_lookup_other.
      * apply lookup_insert_eq.
      * intros w2 h2 Hin' Heq. apply icon_name_inj in Heq as [-> ->]. done.
Qed.

Lemma dom_save_all sizes dir :
  dom (save_all covers sizes dir) =
  dom dir ∪ list_to_set ((λ '(w, h), icon_name w h) <$> sizes).
Proof.
  unfold save_all. revert dir.
  induction sizes as [|[w h] sizes IH]; intros dir; cbn [foldl fmap list_fmap].
  - set_solver.
  - rewrite IH, dom_insert_L. set_solver.
Qed.

End Directory.

(** ** The drawing step *)

Section Drawing.

Variable covers : primitive.

Lemma draw_ellipse_well_sized im xy ink fill width :
  well_sized im → well_sized (draw_ellipse covers im xy ink fill width).
Proof.
  unfold well_sized. simpl. destruct (im_size im) as [w h].
  intros [Hlen Hrows]. split; [by rewrite length_imap|].
  apply Forall_forall. intros row Hrow.
  apply list_elem_of_lookup in Hrow as [i Hi].
  rewrite list_lookup_imap in Hi.
  destruct (im_data im !! i) as [row0|] eqn:Hrow0; simplify_eq/=.
  rewrite length_imap.
  eapply (proj1 (Forall_forall _ _) Hrows), list_elem_of_lookup_2, Hrow0.
Qed.

Lemma draw_ellipse_pixel im xy ink fill width x y p :
  pixel_at im (x, y) = Some p →
  pixel_at (draw_ellipse covers im xy ink fill width) (x, y) =
  Some (covers xy fill width x y ink p).
Proof.
  unfold pixel_at. destruct (Z.leb_spec 0 x), (Z.leb_spec 0 y); try done.
  simpl. rewrite list_lookup_imap.
  destruct (im_data im !! Z.to_nat y) as [row|]; [|done]. simpl.
  rewrite list_lookup_imap. intros ->. simpl.
  by rewrite !Z2Nat.id by done.
Qed.

Lemma blank_pixel w h color x y :
  0 ≤ x < w → 0 ≤ y < h →
  pixel_at {| im_size := (w, h);
              im_data := replicate (Z.to_nat h) (replicate (Z.to_nat w) color) |}
           (x, y) = Some color.
Proof.
  intros Hx Hy. unfold pixel_at.
  destruct (Z.leb_spec 0 x), (Z.leb_spec 0 y); try lia. simpl.
  rewrite lookup_replicate_2 by lia. simpl.
  by rewrite lookup_replicate_2 by lia.
Qed.

Lemma blank_well_sized w h color :
  well_sized {| im_size := (w, h);
                im_data := replicate (Z.to_nat h) (replicate (Z.to_nat w) color) |}.
Proof.
  unfold well_sized. simpl. split; [by rewrite length_replicate|].
  apply Forall_replicate. by rewrite length_replicate.
Qed.

Lemma icon_size w h : im_size (icon covers w h) = (w, h).
Proof. reflexivity. Qed.

Lemma icon_well_sized w h : well_sized (icon covers w h).
Proof.
  apply draw_ellipse_well_sized, draw_ellipse_well_sized, blank_well_sized.
Qed.

Lemma icon_pixel w h x y :
  0 ≤ x < w → 0 ≤ y < h →
  pixel_at (icon covers w h) (x, y) =
  Some (paint covers (margin, margin, w - margin, h - margin) x y).
Proof.
  intros Hx Hy. unfold icon.
  erewrite draw_ellipse_pixel;
    [|erewrite draw_ellipse_pixel; [reflexivity|by apply blank_pixel]].
  reflexivity.
Qed.

Lemma icon_pixel_range w h x y p :
  0 ≤ w → 0 ≤ h →
  pixel_at (icon covers w h) (x, y) = Some p → 0 ≤ x < w ∧ 0 ≤ y < h.
Proof.
  intros Hw Hh. unfold icon, draw_ellipse, pixel_at. cbn [im_data].
  destruct (Z.leb_spec 0 x), (Z.leb_spec 0 y); try done. cbn [andb].
  rewrite !list_lookup_imap.
  destruct (Z.to_nat y <? Z.to_nat h)%nat eqn:Hy.
  - apply Nat.ltb_lt in Hy. rewrite lookup_replicate_2 by done. simpl.
    rewrite !list_lookup_imap.
    destruct (Z.to_nat x <? Z.to_nat w)%nat eqn:Hx.
    + apply Nat.ltb_lt in Hx. lia.
    + apply Nat.ltb_ge in Hx.
      rewrite (proj1 (lookup_replicate_None _ _ _)) by done. done.
  - apply Nat.ltb_ge in Hy.
    rewrite (proj1 (lookup_replicate_None _ _ _)) by done. done.
Qed.

(** The library call of lines 15-16 on the fresh canvas of line 10 yields
    the icon, for a drawable size. *)
Lemma drawn_is_icon w h :
  drawable (w, h) = true →
  ∃ canvas,
    Image_new (w, h) (0, 0, 0, 0) = inr canvas ∧
    (∀ x y, 0 ≤ x < w → 0 ≤ y < h →
            pixel_at canvas (x, y) = Some (0, 0, 0, 0)) ∧
    ImageDraw_ellipse covers canvas (4, 4, w - 4, h - 4)
      (70, 130, 180, 255) (25, 25, 112, 255) 1 = inr (icon covers w h).
Proof.
  intros [[Hw Hw'] [Hh Hh']]%drawable_spec.
  eexists. unfold Image_new, ImageDraw_ellipse.
  rewrite (proj2 (Z.ltb_ge w 0)), (proj2 (Z.ltb_ge h 0)) by lia.
  rewrite (proj2 (Z.leb_gt (2 ^ 31) w)), (proj2 (Z.leb_gt (2 ^ 31) h)) by lia.
  rewrite (proj2 (Z.ltb_ge (w - 4) 4)), (proj2 (Z.ltb_ge (h - 4) 4)) by lia.
  cbn [orb]. split; [reflexivity|]. split; [|reflexivity].
  intros x y Hx Hy. by apply blank_pixel.
Qed.

End Drawing.

Arguments icon : simpl never.

(** ** The reference scan conversion meets the contracts *)

Lemma ref_hard_edged : hard_edged ref_covers.
Proof.
  intros xy fill width x y ink p. unfold ref_covers.
  destruct (ref_mask xy fill width x y); auto.
Qed.

Lemma ref_inside_box : inside_box ref_covers.
Proof.
  intros x0 y0 x1 y1 fill width x y ink p Hout. unfold ref_covers.
  destruct (ref_mask (x0, y0, x1, y1) fill width x y) eqn:Hm; [|done].
  exfalso. apply Hout. unfold ref_mask, in_ellipse in Hm.
  apply andb_prop in Hm as [Hm _].
  apply andb_prop in Hm as [Hm _]. apply andb_prop in Hm as [Hx Hy].
  apply Z.leb_le in Hx, Hy. lia.
Qed.

Lemma ref_strokes_ends : strokes_ends ref_covers.
Proof.
  intros x0 y0 x1 y1 ink p Ha Hb Hea Heb.
  apply Z.even_spec in Hea as [ka Hka]. apply Z.even_spec in Heb as [kb Hkb].
  assert ((y0 + y1) `div` 2 = y0 + kb) as ->.
  { replace (y0 + y1) with ((y0 + kb) * 2) by lia. by apply Z.div_mul. }
  assert ((x0 + x1) `div` 2 = x0 + ka) as ->.
  { replace (x0 + x1) with ((x0 + ka) * 2) by lia. by apply Z.div_mul. }
  assert (∀ dx dy,
    (dx = 0 ∧ Z.abs dy = y1 - y0) ∨ (dy = 0 ∧ Z.abs dx = x1 - x0) →
    in_ellipse (x1 - x0) (y1 - y0) dx dy = true ∧
    in_ellipse (x1 - x0 - 2 * 1) (y1 - y0 - 2 * 1) dx dy = false) as Hend.
  { intros dx dy Hd. unfold in_ellipse. split.
    - rewrite !andb_true_iff, !Z.leb_le.
      destruct Hd as [[-> Hdy]|[-> Hdx]]; (split; [split; [lia|lia]|]).
      + rewrite <-(Z.abs_square dy), Hdy. lia.
      + rewrite <-(Z.abs_square dx), Hdx. lia.
    - destruct Hd as [[-> Hdy]|[-> Hdx]].
      + rewrite (proj2 (Z.leb_gt (Z.abs dy) (y1 - y0 - 2 * 1))) by lia.
        by rewrite andb_false_r.
      + by rewrite (proj2 (Z.leb_gt (Z.abs dx) (x1 - x0 - 2 * 1))) by lia. }
  unfold ref_covers, ref_mask.
  repeat split.
  - destruct (Hend (2 * x0 - x0 - x1) (2 * (y0 + kb) - y0 - y1)) as [-> ->];
      [right; lia|done].
  - destruct (Hend (2 * x1 - x0 - x1) (2 * (y0 + kb) - y0 - y1)) as [-> ->];
      [right; lia|done].
  - destruct (Hend (2 * (x0 + ka) - x0 - x1) (2 * y0 - y0 - y1)) as [-> ->];
      [left; lia|done].
  - destruct (Hend (2 * (x0 + ka) - x0 - x1) (2 * y1 - y0 - y1)) as [-> ->];
      [left; lia|done].
Qed.

(** Inside the ellipse of half the axes is inside the ellipse and inside
    the one the stroke of width 1 leaves free. *)
Lemma half_ellipse_inside a b dx dy :
  8 ≤ a → 8 ≤ b →
  4 * (dx * dx * (b * b) + dy * dy * (a * a)) ≤ a * a * (b * b) →
  in_ellipse a b dx dy = true ∧ in_ellipse (a - 2 * 1) (b - 2 * 1) dx dy = true.
Proof.
  intros Ha Hb Hhalf.
  assert (∀ n m, 0 ≤ m → 4 * (n * n) ≤ m * m → 2 * Z.abs n ≤ m) as Hroot.
  { intros n m Hm Hsq. apply Z.square_le_simpl_nonneg; [done|].
    replace (2 * Z.abs n * (2 * Z.abs n)) with (4 * (Z.abs n * Z.abs n)) by ring.
    by rewrite Z.abs_square. }
  assert (∀ n, 8 ≤ n → 9 * (n * n) ≤ 16 * ((n - 2 * 1) * (n - 2 * 1))) as Hshrink.
  { intros n Hn.
    enough (0 ≤ (7 * n - 8) * (n - 8)) as Hp.
    { replace ((7 * n - 8) * (n - 8))
        with (16 * ((n - 2 * 1) * (n - 2 * 1)) - 9 * (n * n)) in Hp by ring.
      lia. }
    apply Z.mul_nonneg_nonneg; lia. }
  assert (∀ n, 8 ≤ n → (n - 2 * 1) * (n - 2 * 1) ≤ n * n) as Hless.
  { intros n Hn. apply Z.mul_le_mono_nonneg; lia. }
  pose proof (Hshrink a Ha) as HA1. pose proof (Hshrink b Hb) as HB1.
  pose proof (Hless a Ha) as HA2. pose proof (Hless b Hb) as HB2.
  assert (0 ≤ (a - 2 * 1) * (a - 2 * 1)) as HA0 by apply Z.square_nonneg.
  assert (0 ≤ (b - 2 * 1) * (b - 2 * 1)) as HB0 by apply Z.square_nonneg.
  assert (64 ≤ a * a) as HA by (apply (Z.mul_le_mono_nonneg 8 a 8 a); lia).
  assert (64 ≤ b * b) as HB by (apply (Z.mul_le_mono_nonneg 8 b 8 b); lia).
  pose proof (Z.square_nonneg dx) as Hu. pose proof (Z.square_nonneg dy) as Hv.
  remember (dx * dx) as u eqn:Equ. remember (dy * dy) as v eqn:Eqv.
  remember (a * a) as A eqn:EqA. remember (b * b) as B eqn:EqB.
  remember ((a - 2 * 1) * (a - 2 * 1)) as A1 eqn:EqA1.
  remember ((b - 2 * 1) * (b - 2 * 1)) as B1 eqn:EqB1.
  assert (0 ≤ u * B) as HuB by (apply Z.mul_nonneg_nonneg; lia).
  assert (0 ≤ v * A) as HvA by (apply Z.mul_nonneg_nonneg; lia).
  assert (4 * u ≤ A) as Hx.
  { apply (Z.mul_le_mono_pos_r _ _ B); [lia|].
    replace (4 * u * B) with (4 * (u * B)) by ring. lia. }
  assert (4 * v ≤ B) as Hy.
  { apply (Z.mul_le_mono_pos_r _ _ A); [lia|].
    replace (4 * v * A) with (4 * (v * A)) by ring.
    replace (B * A) with (A * B) by ring. lia. }
  assert (2 * Z.abs dx ≤ a) as Hax by (apply Hroot; [lia|by rewrite <-Equ, <-EqA]).
  assert (2 * Z.abs dy ≤ b) as Hay by (apply Hroot; [lia|by rewrite <-Eqv, <-EqB]).
  pose proof (Z.abs_nonneg dx). pose proof (Z.abs_nonneg dy).
  assert (u * B1 ≤ u * B) as HuB1 by (apply Z.mul_le_mono_nonneg_l; lia).
  assert (v * A1 ≤ v * A) as HvA1 by (apply Z.mul_le_mono_nonneg_l; lia).
  assert (9 * A * (9 * B) ≤ 16 * A1 * (16 * B1)) as Hprod.
  { apply Z.mul_le_mono_nonneg; lia. }
  replace (9 * A * (9 * B)) with (81 * (A * B)) in Hprod by ring.
  replace (16 * A1 * (16 * B1)) with (256 * (A1 * B1)) in Hprod by ring.
  assert (0 ≤ A * B) as HAB by (apply Z.mul_nonneg_nonneg; lia).
  unfold in_ellipse. rewrite <-Equ, <-Eqv, <-EqA, <-EqB, <-EqA1, <-EqB1.
  rewrite !andb_true_iff, !Z.leb_le.
  split; (split; [split; lia|]); lia.
Qed.

Lemma ref_fills_centre : fills_centre ref_covers.
Proof.
  intros [[[x0 y0] x1] y1] x y ink p Hin. unfold well_inside in Hin.
  apply andb_prop in Hin as [Hin Hhalf]. apply andb_prop in Hin as [Ha Hb].
  apply Z.leb_le in Ha, Hb, Hhalf.
  destruct (half_ellipse_inside _ _ _ _ Ha Hb Hhalf) as [Hout Hinner].
  unfold ref_covers, ref_mask. by rewrite Hout, Hinner.
Qed.

(** ** Traces and the whole run *)

Lemma remove_dups_NoDup {A} `{EqDecision A} (l : list A) :
  NoDup l → remove_dups l = l.
Proof.
  induction 1 as [|x l Hx _ IH]; [done|]. simpl.
  destruct (decide_rel elem_of x l); [done|]. by rewrite IH.
Qed.

Lemma writes_of_app evs1 evs2 :
  writes_of (evs1 ++ evs2) = writes_of evs1 ++ writes_of evs2.
Proof.
  induction evs1 as [|[]]; simpl; by rewrite ?IHevs1.
Qed.

Lemma writes_of_saves (sizes : list (Z * Z)) :
  writes_of ((λ '(w, h), EvWrite (icon_name w h)) <$> sizes) =
  (λ '(w, h), icon_name w h) <$> sizes.
Proof.
  induction sizes as [|[w h] sizes IH]; [done|].
  cbn [fmap list_fmap writes_of]. f_equal. apply IH.
Qed.

Lemma stdout_of_saves (sizes : list (Z * Z)) :
  stdout_of ((λ '(w, h), EvWrite (icon_name w h)) <$> sizes) = "".
Proof. induction sizes as [|[w h] sizes IH]; [done|]. apply IH. Qed.

Lemma string_app_assoc (s1 s2 s3 : string) :
  (s1 +:+ s2) +:+ s3 = s1 +:+ (s2 +:+ s3).
Proof.
  induction s1 as [|c s1 IH]; [done|].
  change (String c ((s1 +:+ s2) +:+ s3) = String c (s1 +:+ (s2 +:+ s3))).
  by rewrite IH.
Qed.

Lemma stdout_of_app evs1 evs2 :
  stdout_of (evs1 ++ evs2) = stdout_of evs1 +:+ stdout_of evs2.
Proof.
  induction evs1 as [|ev evs1 IH]; [done|].
  change ((ev :: evs1) ++ evs2) with (ev :: (evs1 ++ evs2)).
  destruct ev; cbn [stdout_of]; rewrite IH; try done.
  symmetry. apply string_app_assoc.
Qed.

Lemma new_events_app σ σ' evs :
  events σ' = events σ ++ evs → new_events σ σ' = evs.
Proof. intros Hev. unfold new_events. by rewrite Hev, drop_app_length. Qed.

Lemma icon_name_32 : icon_name 32 32 = "32x32.png".
Proof. reflexivity. Qed.

Lemma icon_name_128_128 : icon_name 128 128 = "128x128.png".
Proof. reflexivity. Qed.

Lemma icon_sizes_positive : positive_sizes icon_sizes.
Proof. repeat constructor. Qed.

Lemma icon_sizes_drawable : first_bad icon_sizes = None.
Proof. reflexivity. Qed.

Section Whole.

Variable covers : primitive.

Lemma main_run σ :
  main covers σ =
  ({| fs := <["128x128@2x.png" := icon covers 128 128]>
              (<["128x128.png" := icon covers 128 128]>
                 (<["32x32.png" := icon covers 32 32]> (fs σ)));
      events := events σ ++
        [EvWrite "32x32.png"; EvWrite "128x128.png"; EvOpen "128x128.png";
         EvWrite "128x128@2x.png";
         EvStdout ("Created placeholder icons" +:+ newline)] |},
   inr tt).
Proof.
  unfold main. rewrite generate_run by apply icon_sizes_drawable.
  unfold save_all, icon_sizes. cbn [foldl fmap list_fmap].
  rewrite icon_name_32, icon_name_128_128. cbv zeta.
  rewrite lookup_insert_eq. by rewrite <-app_assoc.
Qed.

(** Whatever the sizes, the loop only adds or replaces files and its effects
    are writes. *)
Lemma for_each_grows sizes σ :
  ∃ evs,
    events (for_each sizes (loop_body covers) σ).1 = events σ ++ evs ∧
    dom (fs σ) ⊆ dom (fs (for_each sizes (loop_body covers) σ).1) ∧
    stdout_of evs = "" ∧
    Forall (λ ev, ∃ name, ev = EvWrite name) evs.
Proof.
  rewrite for_each_cases. cbn [fst fs events]. eexists.
  split; [reflexivity|]. split; [|split].
  - rewrite dom_save_all. set_solver.
  - apply stdout_of_saves.
  - apply Forall_fmap, Forall_forall. intros [w h] _. by eexists.
Qed.

(** Saving the icons again over a directory that already holds them changes
    nothing. *)
Lemma save_all_absorb sizes dir :
  (∀ w h, (w, h) ∈ sizes → dir !! icon_name w h = Some (icon covers w h)) →
  save_all covers sizes dir = dir.
Proof.
  unfold save_all. revert dir.
  induction sizes as [|[w h] sizes IH]; intros dir Hdir; [done|].
  cbn [foldl]. rewrite insert_id by (apply Hdir; left).
  apply IH. intros w' h' Hin. apply Hdir. by right.
Qed.

(** The directory after the loop, name by name. *)
Lemma save_all_lookup_cases sizes dir name :
  (∃ w h, (w, h) ∈ sizes ∧ icon_name w h = name ∧
          save_all covers sizes dir !! name = Some (icon covers w h)) ∨
  ((∀ w h, (w, h) ∈ sizes → icon_name w h ≠ name) ∧
   save_all covers sizes dir !! name = dir !! name).
Proof.
  destruct (decide (name ∈ ((λ '(w, h), icon_name w h) <$> sizes)))
    as [Hin|Hnin].
  - left. apply list_elem_of_fmap in Hin as ([w h] & -> & Hin).
    exists w, h. split; [done|]. split; [done|]. by apply save_all_lookup.
  - right.
    assert (∀ w h, (w, h) ∈ sizes → icon_name w h ≠ name) as Hne.
    { intros w h Hin Heq. apply Hnin. apply list_elem_of_fmap.
      by exists (w, h). }
    split; [done|]. by apply save_all_lookup_other.
Qed.

Lemma save_all_same_elements sizes sizes' dir :
  (∀ s, s ∈ sizes ↔ s ∈ sizes') →
  save_all covers sizes dir = save_all covers sizes' dir.
Proof.
  intros Hsame. apply map_eq. intros name.
  destruct (save_all_lookup_cases sizes dir name)
    as [(w & h & Hin & <- & ->)|[Hne ->]]; symmetry.
  - apply save_all_lookup. by apply Hsame.
  - apply save_all_lookup_other. intros w h Hin. apply Hne. by apply Hsame.
Qed.

(** The world a run leaves, whatever the sizes and the outcome: the icons of
    the processed sizes, and on success the copy. *)
Lemma generate_cases sizes σ :
  ∃ tail,
    events (generate covers sizes σ).1 =
      events σ ++ ((λ '(w, h), EvWrite (icon_name w h)) <$> processed sizes)
               ++ tail ∧
    (tail = [] ∨
     tail = [EvOpen "128x128.png"; EvWrite "128x128@2x.png";
             EvStdout ("Created placeholder icons" +:+ newline)]) ∧
    ∀ w h, (w, h) ∈ processed sizes →
           fs (generate covers sizes σ).1 !! icon_name w h
           = Some (icon covers w h).
Proof.
  rewrite generate_after_loop, for_each_cases.
  destruct (first_bad sizes) as [s|]; cbn [fs events].
  - exists []. cbn [fst fs events]. rewrite app_nil_r.
    split; [done|]. split; [by left|]. intros w h Hin. by apply save_all_lookup.
  - destruct (save_all covers (processed sizes) (fs σ) !! "128x128.png").
    + eexists. cbn [fst fs events]. rewrite <-app_assoc.
      split; [reflexivity|]. split; [by right|]. intros w h Hin.
      rewrite lookup_insert_ne by (intros Heq; by apply (icon_name_not_2x w h)).
      by apply save_all_lookup.
    + exists []. cbn [fst fs events]. rewrite app_nil_r.
      split; [done|]. split; [by left|]. intros w h Hin.
      by apply save_all_lookup.
Qed.

(** A per-size file the run has written belongs to a drawable size and holds
    the icon drawn for it. *)
Lemma written_file sizes σ w h :
  EvWrite (icon_name w h) ∈ new_events σ (generate covers sizes σ).1 →
  drawable (w, h) = true ∧
  fs (generate covers sizes σ).1 !! icon_name w h = Some (icon covers w h).
Proof.
  destruct (generate_cases sizes σ) as (tail & Hev & Htail & Hfiles).
  rewrite (new_events_app _ _ _ Hev). intros Hin.
  assert ((w, h) ∈ processed sizes) as Hproc.
  { apply elem_of_app in Hin as [Hin|Hin].
    - apply list_elem_of_fmap in Hin as ([w' h'] & Heq & Hin).
      injection Heq as Heq. apply icon_name_inj in Heq as [-> ->]. done.
    - destruct Htail as [->| ->]; [by apply elem_of_nil in Hin|].
      apply elem_of_cons in Hin as [Hin|Hin]; [done|].
      apply elem_of_cons in Hin as [Hin|Hin].
      + injection Hin as Hin. by apply icon_name_not_2x in Hin.
      + apply list_elem_of_singleton in Hin. done. }
  split; [by apply (processed_drawable sizes)|by apply Hfiles].
Qed.

End Whole.

(** * The specified behaviour *)

(** C1. The size sequence is exactly [(32, 32), (128, 128)]; the run
    succeeds and, for each pair of it, the working directory then holds a
    file named after the pair that decodes to an image of exactly that width
    and height; the files are written in the order of the sequence. *)
Theorem C1_dimension_fidelity covers σ :
  icon_sizes = [(32, 32); (128, 128)] ∧
  ((λ '(w, h), icon_name w h) <$> icon_sizes) = ["32x32.png"; "128x128.png"] ∧
  ∃ σ' evs,
    main covers σ = (σ', inr tt) ∧
    Forall (λ '(w, h), ∃ im,
              fs σ' !! icon_name w h = Some im ∧
              im_size im = (w, h) ∧ well_sized im) icon_sizes ∧
    events σ' = events σ ++ evs ∧
    writes_of evs = ["32x32.png"; "128x128.png"; "128x128@2x.png"].
Proof.
  split; [done|]. split; [done|].
  rewrite main_run. eexists _, _. split; [reflexivity|]. cbn [fs events].
  split; [|split; reflexivity].
  unfold icon_sizes. repeat apply Forall_cons_2; [| |apply Forall_nil_2].
  - exists (icon covers 32 32). rewrite icon_name_32.
    rewrite !lookup_insert_ne by done. rewrite lookup_insert_eq.
    auto using icon_size, icon_well_sized.
  - exists (icon covers 128 128). rewrite icon_name_128_128.
    rewrite lookup_insert_ne by done. rewrite lookup_insert_eq.
    auto using icon_size, icon_well_sized.
Qed.

(** C3. After the run the file 128x128@2x.png exists and decodes to the
    same width, height and pixels as 128x128.png.  The copy is made from the
    disk: for any size list, what a successful run saves under the 2x name
    is the file the loop left on disk under the literal name 128x128.png,
    read back by an open event just before the write. *)
Theorem C3_duplicate_identical covers :
  (∀ σ, ∃ σ' a b,
     main covers σ = (σ', inr tt) ∧
     fs σ' !! "128x128.png" = Some a ∧
     fs σ' !! "128x128@2x.png" = Some b ∧
     im_size a = (128, 128) ∧ im_size b = im_size a ∧
     (∀ xy, pixel_at b xy = pixel_at a xy)) ∧
  (∀ sizes σ σ1 σ',
     for_each sizes (loop_body covers) σ = (σ1, inr tt) →
     generate covers sizes σ = (σ', inr tt) →
     (∃ im, fs σ1 !! "128x128.png" = Some im ∧
            fs σ' !! "128x128@2x.png" = Some im ∧
            fs σ' !! "128x128.png" = Some im) ∧
     events σ' = events σ1 ++
       [EvOpen "128x128.png"; EvWrite "128x128@2x.png";
        EvStdout ("Created placeholder icons" +:+ newline)]).
Proof.
  split.
  - intros σ. rewrite main_run.
    eexists _, (icon covers 128 128), (icon covers 128 128).
    split; [reflexivity|]. cbn [fs].
    rewrite lookup_insert_ne by done. rewrite !lookup_insert_eq. done.
  - intros sizes σ σ1 σ' Hloop Hgen.
    rewrite generate_after_loop, Hloop in Hgen.
    destruct (fs σ1 !! "128x128.png") as [im|] eqn:Hsrc; [|done].
    injection Hgen as <-. cbn [fs events]. split; [|done].
    exists im. rewrite lookup_insert_eq, lookup_insert_ne by done. done.
Qed.

Lemma C3_witness :
  ∃ im, fs after_one_run !! "128x128.png" = Some im ∧
        fs (generate ref_covers [(32, 32)] after_one_run).1 !! "128x128@2x.png"
        = Some im.
Proof.
  destruct (C3_duplicate_identical ref_covers) as [_ Hdisk].
  destruct (Hdisk [(32, 32)] after_one_run
              (for_each [(32, 32)] (loop_body ref_covers) after_one_run).1
              (generate ref_covers [(32, 32)] after_one_run).1)
    as [(im & Hsrc & Hcopy & _) _].
  - rewrite for_each_run by reflexivity. reflexivity.
  - rewrite generate_run by reflexivity. cbv zeta.
    unfold after_one_run. rewrite main_run. unfold save_all. cbn [foldl fs fst].
    rewrite icon_name_32. rewrite lookup_insert_ne by done.
    rewrite lookup_insert_ne by done. rewrite lookup_insert_eq. reflexivity.
  - exists im. split; [|exact Hcopy].
    rewrite for_each_run in Hsrc by reflexivity. cbn [fst fs] in Hsrc.
    rewrite save_all_lookup_other in Hsrc; [exact Hsrc|].
    intros w h Hin%list_elem_of_singleton Heq. simplify_eq.
Defined.

(** C10. On a successful run the script writes exactly one line to standard
    output, the text "Created placeholder icons" followed by a line feed,
    once, as its last effect, right after the write of 128x128@2x.png; no
    earlier effect of the run is an output. *)
Theorem C10_confirmation_line covers σ :
  ∃ σ' before,
    main covers σ = (σ', inr tt) ∧
    events σ' = events σ ++ before ++
                [EvStdout ("Created placeholder icons" +:+ newline)] ∧
    last before = Some (EvWrite "128x128@2x.png") ∧
    stdout_of before = "" ∧
    stdout_of (before ++ [EvStdout ("Created placeholder icons" +:+ newline)])
    = "Created placeholder icons" +:+ String (ascii_of_nat 10) "".
Proof.
  rewrite main_run.
  eexists _, [EvWrite "32x32.png"; EvWrite "128x128.png"; EvOpen "128x128.png";
              EvWrite "128x128@2x.png"].
  split; [reflexivity|]. done.
Qed.

(** C8. A second run straight after a first one succeeds and leaves the
    directory exactly as the first run left it: the same three files, each
    decoding to the same size and the same centre pixel (indeed the same
    image), every write replacing the file of the same name. *)
Theorem C8_second_run_idempotent covers σ :
  ∃ σ1 σ2,
    main covers σ = (σ1, inr tt) ∧
    main covers σ1 = (σ2, inr tt) ∧
    fs σ2 = fs σ1 ∧
    dom (fs σ1) =
      dom (fs σ) ∪ {["32x32.png"; "128x128.png"; "128x128@2x.png"]} ∧
    Forall (λ '(name, w, h), ∃ a b,
              fs σ1 !! name = Some a ∧ fs σ2 !! name = Some b ∧
              im_size a = (w, h) ∧ im_size b = (w, h) ∧
              pixel_at b (w `div` 2, h `div` 2) =
              pixel_at a (w `div` 2, h `div` 2))
           [("32x32.png", 32, 32); ("128x128.png", 128, 128);
            ("128x128@2x.png", 128, 128)].
Proof.
  rewrite main_run. eexists _, _. split; [reflexivity|].
  rewrite main_run. split; [reflexivity|]. cbn [fs].
  assert (<["128x128@2x.png" := icon covers 128 128]>
            (<["128x128.png" := icon covers 128 128]>
               (<["32x32.png" := icon covers 32 32]>
                  (<["128x128@2x.png" := icon covers 128 128]>
                     (<["128x128.png" := icon covers 128 128]>
                        (<["32x32.png" := icon covers 32 32]> (fs σ))))))
          = <["128x128@2x.png" := icon covers 128 128]>
              (<["128x128.png" := icon covers 128 128]>
                 (<["32x32.png" := icon covers 32 32]> (fs σ)))) as Hsame.
  { apply map_eq. intros name. rewrite !lookup_insert.
    repeat case_decide; done. }
  rewrite Hsame. split; [done|]. split.
  { rewrite !dom_insert_L. set_solver. }
  repeat apply Forall_cons_2; [..|apply Forall_nil_2].
  - exists (icon covers 32 32), (icon covers 32 32).
    rewrite !lookup_insert_ne by done. rewrite lookup_insert_eq. done.
  - exists (icon covers 128 128), (icon covers 128 128).
    rewrite lookup_insert_ne by done. rewrite lookup_insert_eq. done.
  - exists (icon covers 128 128), (icon covers 128 128).
    rewrite lookup_insert_eq. done.
Qed.




(** C7, as stated, fails when the sequence repeats an entry other than
    (128, 128): [(32, 32), (32, 32), (128, 128)] has length 3 and exactly
    one (128, 128) entry, the run succeeds, and it writes 3 distinct files,
    not 4, the second 32x32.png replacing the first. *)
Lemma C7_counterexample :
  length (filter (λ s, s = (128, 128)) [(32, 32); (32, 32); (128, 128)]) = 1%nat ∧
  ∃ σ', generate ref_covers [(32, 32); (32, 32); (128, 128)] fresh = (σ', inr tt) ∧
        remove_dups (writes_of (events σ'))
        = ["32x32.png"; "128x128.png"; "128x128@2x.png"] ∧
        length (remove_dups (writes_of (events σ')))
        ≠ S (length [(32, 32); (32, 32); (128, 128)]).
Proof.
  split; [reflexivity|].
  rewrite generate_run by reflexivity. cbv zeta.
  unfold save_all. cbn [foldl fs events fmap list_fmap fresh].
  rewrite icon_name_32, icon_name_128_128. rewrite lookup_insert_eq.
  eexists. split; [reflexivity|]. cbn [events app writes_of].
  split; [reflexivity|]. vm_compute. discriminate.
Qed.

(** C7, amended.  For a size sequence of N pairwise distinct entries that
    includes (128, 128), a successful run writes exactly N + 1 distinct
    files, the N per-size files and 128x128@2x.png, and no other file of the
    directory is created or changed. *)
Theorem C7_file_count covers sizes σ σ' :
  NoDup sizes → (128, 128) ∈ sizes →
  generate covers sizes σ = (σ', inr tt) →
  ∃ evs,
    events σ' = events σ ++ evs ∧
    writes_of evs = ((λ '(w, h), icon_name w h) <$> sizes) ++ ["128x128@2x.png"] ∧
    NoDup (writes_of evs) ∧
    length (remove_dups (writes_of evs)) = S (length sizes) ∧
    dom (fs σ') = dom (fs σ) ∪ list_to_set (writes_of evs) ∧
    (∀ name, name ∉ writes_of evs → fs σ' !! name = fs σ !! name).
Proof.
  intros Hnd Hin Hrun.
  pose proof (generate_success _ _ _ _ Hrun) as Hok.
  rewrite generate_run in Hrun by done. cbv zeta in Hrun.
  pose proof (save_all_lookup covers sizes (fs σ) 128 128 Hin) as Hsrc.
  rewrite icon_name_128_128 in Hsrc. rewrite Hsrc in Hrun.
  injection Hrun as <-. eexists. cbn [fs events].
  split; [by rewrite <-app_assoc|].
  assert (writes_of
            (((λ '(w, h), EvWrite (icon_name w h)) <$> sizes) ++
             [EvOpen "128x128.png"; EvWrite "128x128@2x.png";
              EvStdout ("Created placeholder icons" +:+ newline)])
          = ((λ '(w, h), icon_name w h) <$> sizes) ++ ["128x128@2x.png"])
    as Hwr.
  { by rewrite writes_of_app, writes_of_saves. }
  rewrite Hwr.
  assert (NoDup (((λ '(w, h), icon_name w h) <$> sizes) ++ ["128x128@2x.png"]))
    as Hnames.
  { apply NoDup_app. split; [|split].
    - apply NoDup_fmap_2_strong; [|done].
      intros [w h] [w' h'] _ _ Heq. apply icon_name_inj in Heq as [-> ->]. done.
    - intros name Hname Hdup. apply list_elem_of_singleton in Hdup as ->.
      apply list_elem_of_fmap in Hname as ([w h] & Heq & _).
      by apply (icon_name_not_2x w h).
    - apply NoDup_singleton. }
  split; [done|]. split; [done|]. split.
  { rewrite remove_dups_NoDup by done.
    rewrite length_app, length_fmap. simpl. lia. }
  split.
  { rewrite dom_insert_L, dom_save_all, list_to_set_app_L. set_solver. }
  intros name Hname.
  rewrite lookup_insert_ne.
  - apply save_all_lookup_other. intros w h Hwh Heq. apply Hname.
    apply elem_of_app. left. apply list_elem_of_fmap. by exists (w, h).
  - intros <-. apply Hname. apply elem_of_app. right. apply list_elem_of_here.
Qed.

Lemma C7_witness :
  ∃ evs,
    events (main ref_covers fresh).1 = evs ∧
    writes_of evs = ["32x32.png"; "128x128.png"; "128x128@2x.png"] ∧
    length (remove_dups (writes_of evs)) = 3%nat.
Proof.
  destruct (C7_file_count ref_covers icon_sizes fresh (main ref_covers fresh).1)
    as (evs & Hevs & Hwr & _ & Hlen & _).
  - unfold icon_sizes. apply NoDup_cons. split; [|apply NoDup_singleton].
    intros Hin%list_elem_of_singleton. discriminate Hin.
  - apply list_elem_of_further, list_elem_of_here.
  - change (generate ref_covers icon_sizes) with (main ref_covers).
    rewrite main_run. reflexivity.
  - exists evs. split; [exact Hevs|]. split; [exact Hwr|exact Hlen].
Defined.

(** C2. For every per-size file the run writes, the canvas is allocated with
    every pixel (0, 0, 0, 0) and the saved image is that canvas after exactly
    one ellipse call with bounding box [4, 4, width - 4, height - 4], fill
    (70, 130, 180, 255) and outline (25, 25, 112, 255): each pixel is what
    the outline stroke leaves of what the filled shape leaves of the
    background.  The box is inclusive at both ends: for a scan conversion
    that keeps to its box and reaches its ends, every pixel outside
    4 <= x <= width - 4, 4 <= y <= height - 4 keeps the background and, for
    even sizes from 16 on, the pixels on the axes at x = 4, x = width - 4,
    y = 4 and y = height - 4 carry the outline colour. *)
Theorem C2_ellipse_drawn covers sizes σ w h :
  inside_box covers → strokes_ends covers →
  EvWrite (icon_name w h) ∈ new_events σ (generate covers sizes σ).1 →
  margin = 4 ∧
  ∃ canvas im,
    Image_new (w, h) (0, 0, 0, 0) = inr canvas ∧
    (∀ x y, 0 ≤ x < w → 0 ≤ y < h →
            pixel_at canvas (x, y) = Some (0, 0, 0, 0)) ∧
    ImageDraw_ellipse covers canvas (4, 4, w - 4, h - 4)
      (70, 130, 180, 255) (25, 25, 112, 255) 1 = inr im ∧
    fs (generate covers sizes σ).1 !! icon_name w h = Some im ∧
    (∀ x y, 0 ≤ x < w → 0 ≤ y < h →
            pixel_at im (x, y) =
            Some (covers (4, 4, w - 4, h - 4) false 1 x y (25, 25, 112, 255)
                    (covers (4, 4, w - 4, h - 4) true 0 x y
                       (70, 130, 180, 255) (0, 0, 0, 0)))) ∧
    (∀ x y, 0 ≤ x < w → 0 ≤ y < h →
            ¬ (4 ≤ x ≤ w - 4 ∧ 4 ≤ y ≤ h - 4) →
            pixel_at im (x, y) = Some (0, 0, 0, 0)) ∧
    (16 ≤ w → 16 ≤ h → Z.even w = true → Z.even h = true →
     pixel_at im (4, h `div` 2) = Some (25, 25, 112, 255) ∧
     pixel_at im (w - 4, h `div` 2) = Some (25, 25, 112, 255) ∧
     pixel_at im (w `div` 2, 4) = Some (25, 25, 112, 255) ∧
     pixel_at im (w `div` 2, h - 4) = Some (25, 25, 112, 255)).
Proof.
  intros Hbox Hends Hwritten. split; [done|].
  destruct (written_file covers sizes σ w h Hwritten) as [Hd Hfile].
  destruct (drawn_is_icon covers w h Hd) as (canvas & Hnew & Hblank & Hdraw).
  apply drawable_spec in Hd as [[Hw _] [Hh _]].
  exists canvas, (icon covers w h).
  split; [done|]. split; [done|]. split; [done|]. split; [done|].
  split; [intros x y Hx Hy; by rewrite icon_pixel|]. split.
  - intros x y Hx Hy Hout. rewrite icon_pixel by done.
    unfold paint, margin. by rewrite !Hbox.
  - intros Hw16 Hh16 Hew Heh.
    assert (Z.even (w - 4 - 4) = true) as Hea.
    { replace (w - 4 - 4) with (w + 2 * -4) by lia.
      by rewrite Z.even_add_mul_2. }
    assert (Z.even (h - 4 - 4) = true) as Heb.
    { replace (h - 4 - 4) with (h + 2 * -4) by lia.
      by rewrite Z.even_add_mul_2. }
    assert (∀ ink p,
      covers (4, 4, w - 4, h - 4) false 1 4 (h `div` 2) ink p = ink ∧
      covers (4, 4, w - 4, h - 4) false 1 (w - 4) (h `div` 2) ink p = ink ∧
      covers (4, 4, w - 4, h - 4) false 1 (w `div` 2) 4 ink p = ink ∧
      covers (4, 4, w - 4, h - 4) false 1 (w `div` 2) (h - 4) ink p = ink)
      as Hstroke.
    { intros ink p.
      pose proof (Hends 4 4 (w - 4) (h - 4) ink p) as Hall.
      replace (4 + (w - 4)) with w in Hall by lia.
      replace (4 + (h - 4)) with h in Hall by lia.
      apply Hall; [lia|lia|done|done]. }
    assert (0 ≤ w `div` 2 < w ∧ 0 ≤ h `div` 2 < h) as [Hcx Hcy].
    { split; (split; [apply Z.div_pos; lia|apply Z.div_lt_upper_bound; lia]). }
    rewrite !icon_pixel by lia. unfold paint, margin.
    destruct (Hstroke midnight_blue
                (covers (4, 4, w - 4, h - 4) true 0 4 (h `div` 2)
                   steel_blue transparent)) as (-> & _).
    destruct (Hstroke midnight_blue
                (covers (4, 4, w - 4, h - 4) true 0 (w - 4) (h `div` 2)
                   steel_blue transparent)) as (_ & -> & _).
    destruct (Hstroke midnight_blue
                (covers (4, 4, w - 4, h - 4) true 0 (w `div` 2) 4
                   steel_blue transparent)) as (_ & _ & -> & _).
    destruct (Hstroke midnight_blue
                (covers (4, 4, w - 4, h - 4) true 0 (w `div` 2) (h - 4)
                   steel_blue transparent)) as (_ & _ & _ & ->).
    done.
Qed.

(** The effects of the configured run, for use at concrete inputs. *)
Lemma main_new_events covers σ :
  new_events σ (generate covers icon_sizes σ).1 =
  [EvWrite (icon_name 32 32); EvWrite (icon_name 128 128);
   EvOpen "128x128.png"; EvWrite "128x128@2x.png";
   EvStdout ("Created placeholder icons" +:+ newline)].
Proof.
  change (generate covers icon_sizes) with (main covers).
  apply new_events_app. by rewrite main_run.
Qed.

Lemma C2_witness :
  ∃ im, fs (generate ref_covers icon_sizes fresh).1 !! icon_name 32 32 = Some im ∧
        pixel_at im (4, 32 `div` 2) = Some (25, 25, 112, 255) ∧
        pixel_at im (32 - 4, 32 `div` 2) = Some (25, 25, 112, 255) ∧
        pixel_at im (16, 16) = Some (70, 130, 180, 255) ∧
        pixel_at im (3, 16) = Some (0, 0, 0, 0) ∧
        pixel_at im (29, 16) = Some (0, 0, 0, 0).
Proof.
  destruct (C2_ellipse_drawn ref_covers icon_sizes fresh 32 32)
    as (_ & canvas & im & _ & _ & _ & Hfile & Hpix & Hout & Hends).
  - apply ref_inside_box.
  - apply ref_strokes_ends.
  - rewrite main_new_events. apply list_elem_of_here.
  - exists im. split; [exact Hfile|].
    destruct Hends as (Hl & Hr & _); [lia|lia|reflexivity|reflexivity|].
    split; [exact Hl|]. split; [exact Hr|].
    split; [by rewrite Hpix by lia|].
    split; apply Hout; lia.
Defined.

(** C5. For every per-size file the run writes (its size then leaves room
    for the margin), the four corner pixels of the icon, (0, 0),
    (width - 1, 0), (0, height - 1) and (width - 1, height - 1), have
    alpha 0, for any scan conversion that keeps to its bounding box. *)
Theorem C5_corners_transparent covers sizes σ w h :
  inside_box covers →
  EvWrite (icon_name w h) ∈ new_events σ (generate covers sizes σ).1 →
  2 * margin ≤ w ∧ 2 * margin ≤ h ∧
  ∃ im, fs (generate covers sizes σ).1 !! icon_name w h = Some im ∧
        Forall (λ xy, ∃ p, pixel_at im xy = Some p ∧ alpha p = 0)
               [(0, 0); (w - 1, 0); (0, h - 1); (w - 1, h - 1)].
Proof.
  intros Hbox Hwritten.
  destruct (written_file covers sizes σ w h Hwritten) as [Hd Hfile].
  apply drawable_spec in Hd as [[Hw _] [Hh _]]. unfold margin.
  split; [lia|]. split; [lia|].
  exists (icon covers w h). split; [done|].
  assert (∀ x y, 0 ≤ x < w → 0 ≤ y < h →
                 ¬ (4 ≤ x ≤ w - 4 ∧ 4 ≤ y ≤ h - 4) →
                 ∃ p, pixel_at (icon covers w h) (x, y) = Some p ∧ alpha p = 0)
    as Hout.
  { intros x y Hx Hy Hnot. eexists. split; [by apply icon_pixel|].
    unfold paint, margin. by rewrite !Hbox. }
  repeat apply Forall_cons_2; [..|apply Forall_nil_2]; apply Hout; lia.
Qed.

Lemma C5_witness :
  (∃ im, fs (generate ref_covers icon_sizes fresh).1 !! icon_name 32 32 = Some im ∧
         Forall (λ xy, ∃ p, pixel_at im xy = Some p ∧ alpha p = 0)
                [(0, 0); (32 - 1, 0); (0, 32 - 1); (32 - 1, 32 - 1)]) ∧
  (∃ im, fs (generate ref_covers icon_sizes fresh).1 !! icon_name 128 128 = Some im ∧
         Forall (λ xy, ∃ p, pixel_at im xy = Some p ∧ alpha p = 0)
                [(0, 0); (128 - 1, 0); (0, 128 - 1); (128 - 1, 128 - 1)]).
Proof.
  split.
  - apply (C5_corners_transparent ref_covers icon_sizes fresh 32 32);
      [apply ref_inside_box|].
    rewrite main_new_events. apply list_elem_of_here.
  - apply (C5_corners_transparent ref_covers icon_sizes fresh 128 128);
      [apply ref_inside_box|].
    rewrite main_new_events. apply list_elem_of_further, list_elem_of_here.
Defined.

(** C6. For a scan conversion that fills what lies well inside the ellipse
    and keeps its stroke off it: for every per-size file the run writes
    whose centre pixel lies well inside the ellipse of the box
    [4, 4, width - 4, height - 4], the centre pixel of the icon is exactly
    the fill colour (70, 130, 180, 255); the centre lies well inside for
    both 32x32 and 128x128, so after the configured run both icons have the
    fill colour at their centre. *)
Theorem C6_centre_is_fill covers :
  fills_centre covers →
  (∀ sizes σ w h,
     EvWrite (icon_name w h) ∈ new_events σ (generate covers sizes σ).1 →
     well_inside (margin, margin, w - margin, h - margin)
                 (w `div` 2) (h `div` 2) = true →
     ∃ im, fs (generate covers sizes σ).1 !! icon_name w h = Some im ∧
           pixel_at im (w `div` 2, h `div` 2) = Some (70, 130, 180, 255)) ∧
  Forall (λ '(w, h),
            well_inside (margin, margin, w - margin, h - margin)
                        (w `div` 2) (h `div` 2) = true) icon_sizes ∧
  (∀ σ, Forall (λ '(w, h), ∃ im,
                  fs (main covers σ).1 !! icon_name w h = Some im ∧
                  pixel_at im (w `div` 2, h `div` 2) = Some (70, 130, 180, 255))
               icon_sizes).
Proof.
  intros Hcentre.
  assert (∀ sizes σ w h,
     EvWrite (icon_name w h) ∈ new_events σ (generate covers sizes σ).1 →
     well_inside (margin, margin, w - margin, h - margin)
                 (w `div` 2) (h `div` 2) = true →
     ∃ im, fs (generate covers sizes σ).1 !! icon_name w h = Some im ∧
           pixel_at im (w `div` 2, h `div` 2) = Some (70, 130, 180, 255))
    as Hgen.
  { intros sizes σ w h Hwritten Hin.
    destruct (written_file covers sizes σ w h Hwritten) as [Hd Hfile].
    apply drawable_spec in Hd as [[Hw _] [Hh _]].
    exists (icon covers w h). split; [done|].
    rewrite icon_pixel.
    - unfold paint. destruct (Hcentre _ _ _ steel_blue transparent Hin) as [-> _].
      destruct (Hcentre _ _ _ midnight_blue steel_blue Hin) as [_ ->]. done.
    - split; [apply Z.div_pos; lia|apply Z.div_lt_upper_bound; lia].
    - split; [apply Z.div_pos; lia|apply Z.div_lt_upper_bound; lia]. }
  split; [exact Hgen|]. split; [by repeat constructor|].
  intros σ. unfold icon_sizes.
  repeat apply Forall_cons_2; [..|apply Forall_nil_2].
  - apply (Hgen icon_sizes σ 32 32); [|reflexivity].
    rewrite main_new_events. apply list_elem_of_here.
  - apply (Hgen icon_sizes σ 128 128); [|reflexivity].
    rewrite main_new_events. apply list_elem_of_further, list_elem_of_here.
Qed.

Lemma C6_witness :
  Forall (λ '(w, h), ∃ im,
            fs (main ref_covers fresh).1 !! icon_name w h = Some im ∧
            pixel_at im (w `div` 2, h `div` 2) = Some (70, 130, 180, 255))
         icon_sizes.
Proof.
  destruct (C6_centre_is_fill ref_covers ref_fills_centre) as (_ & _ & Hmain).
  exact (Hmain fresh).
Defined.

(** C9. For a hard-edged scan conversion (a pass sets a pixel to the ink or
    leaves it, without blending or anti-aliasing), every pixel of every
    per-size file the run writes is one of exactly three colours: the
    transparent background (0, 0, 0, 0), the fill (70, 130, 180, 255) or the
    outline (25, 25, 112, 255). *)
Theorem C9_three_colours covers sizes σ w h :
  hard_edged covers →
  EvWrite (icon_name w h) ∈ new_events σ (generate covers sizes σ).1 →
  ∃ im, fs (generate covers sizes σ).1 !! icon_name w h = Some im ∧
        ∀ x y p, pixel_at im (x, y) = Some p →
                 p = (0, 0, 0, 0) ∨ p = (70, 130, 180, 255) ∨
                 p = (25, 25, 112, 255).
Proof.
  intros Hhard Hwritten.
  destruct (written_file covers sizes σ w h Hwritten) as [Hd Hfile].
  apply drawable_spec in Hd as [[Hw _] [Hh _]].
  exists (icon covers w h). split; [done|].
  intros x y p Hp.
  destruct (icon_pixel_range covers w h x y p) as [Hx Hy]; [lia..|done|].
  rewrite icon_pixel in Hp by done. injection Hp as <-.
  unfold paint.
  destruct (Hhard (margin, margin, w - margin, h - margin) false 1 x y
              midnight_blue
              (covers (margin, margin, w - margin, h - margin) true 0 x y
                 steel_blue transparent)) as [->| ->]; [auto|].
  destruct (Hhard (margin, margin, w - margin, h - margin) true 0 x y
              steel_blue transparent) as [->| ->]; auto.
Qed.

Lemma C9_witness :
  ∃ im, fs (generate ref_covers icon_sizes fresh).1 !! icon_name 128 128 = Some im ∧
        ∀ x y p, pixel_at im (x, y) = Some p →
                 p = (0, 0, 0, 0) ∨ p = (70, 130, 180, 255) ∨
                 p = (25, 25, 112, 255).
Proof.
  apply (C9_three_colours ref_covers icon_sizes fresh 128 128);
    [apply ref_hard_edged|].
  rewrite main_new_events. apply list_elem_of_further, list_elem_of_here.
Defined.

(** * Further properties of the script *)

(** ** File names *)

(** X1. The file name of line 19 determines the size: two sizes share a
    name only when they are the same pair, and no size is ever saved under
    the name of the 2x copy. *)
Theorem X1_icon_names_distinct w h w' h' :
  (icon_name w h = icon_name w' h' ↔ (w, h) = (w', h')) ∧
  icon_name w h ≠ "128x128@2x.png".
Proof.
  split; [|apply icon_name_not_2x]. split.
  - intros Heq. apply icon_name_inj in Heq as [-> ->]. done.
  - intros Heq. by simplify_eq.
Qed.

(** ** What a run does to the directory and the trace *)

(** X2. Whatever the size list, and whether the run succeeds or raises, no
    file of the working directory is removed and the trace of earlier
    effects is only extended. *)
Theorem X2_directory_only_grows covers sizes σ :
  dom (fs σ) ⊆ dom (fs (generate covers sizes σ).1) ∧
  events σ `prefix_of` events (generate covers sizes σ).1.
Proof.
  destruct (for_each_grows covers sizes σ) as (evs & Hev & Hdom & _ & _).
  rewrite generate_after_loop.
  destruct (for_each sizes (loop_body covers) σ) as [σ1 [e|[]]];
    cbn [fst] in *.
  - split; [done|]. rewrite Hev. by apply prefix_app_r.
  - destruct (fs σ1 !! "128x128.png") as [im|]; cbn [fst fs events].
    + split.
      * rewrite dom_insert_L. set_solver.
      * rewrite Hev, <-app_assoc. by apply prefix_app_r.
    + split; [done|]. rewrite Hev. by apply prefix_app_r.
Qed.

(** X3. Whatever the size list, the confirmation line is printed exactly
    when the run succeeds, and then exactly once; a run that raises prints
    nothing. *)
Theorem X3_prints_iff_success covers sizes σ :
  ∃ evs,
    events (generate covers sizes σ).1 = events σ ++ evs ∧
    stdout_of evs =
    match (generate covers sizes σ).2 with
    | inr _ => "Created placeholder icons" +:+ newline
    | inl _ => ""
    end.
Proof.
  destruct (for_each_grows covers sizes σ) as (evs & Hev & _ & Hout & _).
  rewrite generate_after_loop.
  destruct (for_each sizes (loop_body covers) σ) as [σ1 [e|[]]];
    cbn [fst] in *.
  - by exists evs.
  - destruct (fs σ1 !! "128x128.png") as [im|]; cbn [fst snd events].
    + eexists. rewrite Hev, <-app_assoc. split; [reflexivity|].
      rewrite stdout_of_app, Hout. reflexivity.
    + by exists evs.
Qed.

(** X5. For positive sizes, running the script again straight after a run
    has the same outcome and leaves the directory as that run left it,
    whether the run succeeded or raised. *)
Theorem X5_rerun_idempotent covers sizes σ :
  positive_sizes sizes →
  fs (generate covers sizes (generate covers sizes σ).1).1 =
  fs (generate covers sizes σ).1 ∧
  (generate covers sizes (generate covers sizes σ).1).2 =
  (generate covers sizes σ).2.
Proof.
  intros _. destruct (first_bad sizes) as [s|] eqn:Hbad.
  - rewrite (generate_stop covers sizes s σ) by done. cbn [fst snd].
    rewrite (generate_stop covers sizes s) by done. cbn [fst snd fs].
    rewrite save_all_absorb; [done|].
    intros w h Hin. by apply save_all_lookup.
  - rewrite (generate_run covers sizes σ) by done. cbv zeta.
    set (dir := save_all covers sizes (fs σ)).
    assert (∀ w h, (w, h) ∈ sizes →
                   dir !! icon_name w h = Some (icon covers w h)) as Hdir.
    { intros w h Hin. by apply save_all_lookup. }
    destruct (dir !! "128x128.png") as [im|] eqn:Hsrc; cbn [fst snd].
    + rewrite generate_run by done. cbv zeta. cbn [fs events].
      rewrite save_all_absorb.
      * rewrite lookup_insert_ne by done. rewrite Hsrc. cbn [fst snd fs].
        by rewrite insert_insert_eq.
      * intros w h Hin.
        rewrite lookup_insert_ne
          by (intros Heq; by apply (icon_name_not_2x w h)).
        by apply Hdir.
    + rewrite generate_run by done. cbv zeta. cbn [fs events].
      rewrite save_all_absorb by done. by rewrite Hsrc.
Qed.

Lemma X5_witness :
  fs (generate ref_covers [(32, 32)] (generate ref_covers [(32, 32)] fresh).1).1 =
  fs (generate ref_covers [(32, 32)] fresh).1 ∧
  (generate ref_covers [(32, 32)] (generate ref_covers [(32, 32)] fresh).1).2 =
  (generate ref_covers [(32, 32)] fresh).2.
Proof.
  apply (X5_rerun_idempotent ref_covers [(32, 32)] fresh). repeat constructor.
Defined.

(** ** The duplication step in general *)

(** X8. After a successful run on positive sizes, 128x128@2x.png holds the
    freshly drawn 128x128 icon when (128, 128) is in the list, whatever the
    directory held before; when it is not, the copy is the 128x128.png that
    was already in the directory, untouched by the loop. *)
Theorem X8_copy_source covers sizes σ σ' :
  positive_sizes sizes → generate covers sizes σ = (σ', inr tt) →
  fs σ' !! "128x128@2x.png" =
  (if decide ((128, 128) ∈ sizes) then Some (icon covers 128 128)
   else fs σ !! "128x128.png") ∧
  fs σ' !! "128x128.png" = fs σ' !! "128x128@2x.png".
Proof.
  intros _ Hrun. pose proof (generate_success _ _ _ _ Hrun) as Hok.
  rewrite generate_run in Hrun by done. cbv zeta in Hrun.
  destruct (save_all covers sizes (fs σ) !! "128x128.png") as [im|] eqn:Hsrc;
    [|done].
  injection Hrun as <-. cbn [fs].
  rewrite lookup_insert_eq, lookup_insert_ne, Hsrc by done.
  split; [|done]. case_decide as Hin.
  - pose proof (save_all_lookup covers sizes (fs σ) 128 128 Hin) as Hicon.
    rewrite icon_name_128_128 in Hicon. congruence.
  - rewrite <-Hsrc. apply save_all_lookup_other.
    intros w h Hwh Heq. apply icon_name_128 in Heq. by simplify_eq.
Qed.

Lemma X8_witness :
  fs (generate ref_covers icon_sizes after_one_run).1 !! "128x128@2x.png"
  = Some (icon ref_covers 128 128).
Proof.
  destruct (X8_copy_source ref_covers icon_sizes after_one_run
              (generate ref_covers icon_sizes after_one_run).1) as [Hcopy _].
  - apply icon_sizes_positive.
  - change (generate ref_covers icon_sizes) with (main ref_covers).
    rewrite main_run. reflexivity.
  - rewrite Hcopy. reflexivity.
Defined.

(** X9. A successful run on N positive sizes performs exactly N + 1 file
    writes, repeats included: one per entry of the list in list order, then
    one open of 128x128.png, the write of 128x128@2x.png and the printed
    line, and nothing else. *)
Theorem X9_effects_of_success covers sizes σ σ' :
  positive_sizes sizes → generate covers sizes σ = (σ', inr tt) →
  ∃ evs,
    events σ' = events σ ++ evs ∧
    evs = ((λ '(w, h), EvWrite (icon_name w h)) <$> sizes) ++
          [EvOpen "128x128.png"; EvWrite "128x128@2x.png";
           EvStdout ("Created placeholder icons" +:+ newline)] ∧
    length (writes_of evs) = S (length sizes).
Proof.
  intros _ Hrun. pose proof (generate_success _ _ _ _ Hrun) as Hok.
  rewrite generate_run in Hrun by done. cbv zeta in Hrun.
  destruct (save_all covers sizes (fs σ) !! "128x128.png") as [im|]; [|done].
  injection Hrun as <-. cbn [events]. eexists.
  split; [by rewrite <-app_assoc|]. split; [reflexivity|].
  rewrite writes_of_app, writes_of_saves, length_app, length_fmap.
  simpl. lia.
Qed.

Lemma X9_witness :
  ∃ evs,
    events (generate ref_covers [(32, 32); (32, 32); (128, 128)] fresh).1 = evs ∧
    writes_of evs = ["32x32.png"; "32x32.png"; "128x128.png"; "128x128@2x.png"] ∧
    length (writes_of evs) = 4%nat.
Proof.
  destruct (X9_effects_of_success ref_covers [(32, 32); (32, 32); (128, 128)]
              fresh (generate ref_covers [(32, 32); (32, 32); (128, 128)] fresh).1)
    as (evs & Hev & -> & Hlen).
  - repeat constructor.
  - rewrite generate_run by reflexivity. cbv zeta.
    unfold save_all. cbn [foldl fs fresh].
    rewrite icon_name_128_128, lookup_insert_eq. reflexivity.
  - eexists. split; [exact Hev|]. split; [reflexivity|exact Hlen].
Defined.

(** ** Order of the sizes and sizes the loop cannot draw *)


(** X4. When a run succeeds, a run on any list with the same sizes, in
    another order or with other repetitions, succeeds as well and leaves the
    same directory: a repeated size just replaces its own file by the same
    image. *)
Theorem X4_order_irrelevant covers sizes sizes' σ σ1 :
  generate covers sizes σ = (σ1, inr tt) →
  (∀ s, s ∈ sizes ↔ s ∈ sizes') →
  ∃ σ2, generate covers sizes' σ = (σ2, inr tt) ∧ fs σ2 = fs σ1.
Proof.
  intros Hrun Hsame. pose proof (generate_success _ _ _ _ Hrun) as Hok.
  assert (first_bad sizes' = None) as Hok'.
  { apply first_bad_None, Forall_forall. intros s Hs. apply Hsame in Hs.
    by apply (proj1 (Forall_forall _ _) (proj1 (first_bad_None _) Hok)). }
  rewrite generate_run in Hrun by done. rewrite generate_run by done.
  cbv zeta in *.
  rewrite <-(save_all_same_elements covers sizes sizes') by done.
  destruct (save_all covers sizes (fs σ) !! "128x128.png"); [|done].
  injection Hrun as <-. by eexists.
Qed.

Lemma X4_witness :
  ∃ σ2, generate ref_covers [(128, 128); (32, 32); (128, 128)] fresh = (σ2, inr tt) ∧
        fs σ2 = fs (main ref_covers fresh).1.
Proof.
  apply (X4_order_irrelevant ref_covers icon_sizes
           [(128, 128); (32, 32); (128, 128)] fresh (main ref_covers fresh).1).
  - change (generate ref_covers icon_sizes) with (main ref_covers).
    rewrite main_run. reflexivity.
  - intros s. unfold icon_sizes. rewrite !elem_of_cons, !elem_of_nil. tauto.
Defined.



(** X10. A run that succeeds has drawn every size of the list: each width
    and height is at least 8 and within a C int, and each size has its file
    in the directory, decoding to an image of exactly that width and
    height. *)
Theorem X10_success_draws_all covers sizes σ σ' :
  generate covers sizes σ = (σ', inr tt) →
  Forall (λ '(w, h),
            (8 ≤ w < 2 ^ 31 ∧ 8 ≤ h < 2 ^ 31) ∧
            ∃ im, fs σ' !! icon_name w h = Some im ∧
                  im_size im = (w, h) ∧ well_sized im) sizes.
Proof.
  intros Hrun. pose proof (generate_success _ _ _ _ Hrun) as Hok.
  apply Forall_forall. intros [w h] Hin.
  split.
  - apply drawable_spec.
    by apply (proj1 (Forall_forall _ _) (proj1 (first_bad_None _) Hok)).
  - exists (icon covers w h).
    destruct (generate_cases covers sizes σ) as (_ & _ & _ & Hfiles).
    rewrite Hrun, processed_all in Hfiles by done. cbn [fst] in Hfiles.
    split; [by apply Hfiles|].
    split; [apply icon_size|apply icon_well_sized].
Qed.

Lemma X10_witness :
  Forall (λ '(w, h),
            (8 ≤ w < 2 ^ 31 ∧ 8 ≤ h < 2 ^ 31) ∧
            ∃ im, fs (main ref_covers fresh).1 !! icon_name w h = Some im ∧
                  im_size im = (w, h) ∧ well_sized im) icon_sizes.
Proof.
  apply (X10_success_draws_all ref_covers icon_sizes fresh).
  change (generate ref_covers icon_sizes) with (main ref_covers).
  rewrite main_run. reflexivity.
Defined.
